(** * Portfolio page (src/App.tsx): view-state logic of the [App] component

    The component owns four pieces of view state:
    - [inView], the per-section visibility flags written by the
      IntersectionObserver callback;
    - the decorative three.js scene of the header (set up in an effect, driven
      by [requestAnimationFrame], adapted on [resize], released on unmount);
    - [showBackToTop], written by the scroll listener;
    - [isMobileMenuOpen], written by the menu button and the mobile links.

    JavaScript numbers are binary64 floating-point values; where the code
    computes with them they are modelled by Rocq's primitive floats, whose
    operations are the IEEE 754 ones. A JS object used as a record with
    string keys is a [gmap string _]. *)

From Stdlib Require Import Floats Uint63 QArith.
From stdpp Require Import gmap strings list fin_maps.

Set Warnings "-inexact-float".
Local Open Scope string_scope.
Local Open Scope list_scope.

(** ** Section visibility (lines 10-68 of App.tsx) *)

Module Visibility.

(** The keys of the object literals [sectionRefs] and [inView], in source
    order. *)
Definition section_ids : list string :=
  ["summary"; "skills"; "experience"; "projects"; "achievements"; "education"].

(** [useState({ summary: false, ..., education: false })] *)
Definition inView_init : gmap string bool :=
  <["summary" := false]> (<["skills" := false]> (<["experience" := false]>
  (<["projects" := false]> (<["achievements" := false]>
  (<["education" := false]> ∅))))).

(** [Object.keys(o)]: the own keys of [o]. *)
Definition keys (o : gmap string bool) : list string := (map_to_list o).*1.

(** [xs.includes(x)] *)
Definition includes (xs : list string) (x : string) : bool :=
  bool_decide (x ∈ xs).

(** An [IntersectionObserverEntry], reduced to the two properties the
    callback reads: [entry.target.id] and [entry.isIntersecting]. *)
Record entry := Entry { target_id : string; isIntersecting : bool }.

(** The argument of [setInView]: a functional update [prev => next]. *)
Definition updater := gmap string bool → gmap string bool.

(** [prev => ({ ...prev, [sectionId]: entry.isIntersecting })] *)
Definition spread_set (sectionId : string) (b : bool) : updater :=
  λ prev, <[sectionId := b]> prev.

(** [observerCallback]: the closure captures [inView] (the state of the
    render that created the callback); each entry whose id is a key of that
    object enqueues one functional update. *)
Definition observerCallback (inView : gmap string bool) (entries : list entry)
  : list updater :=
  flat_map (λ e,
    let sectionId := target_id e in
    if includes (keys inView) sectionId
    then [spread_set sectionId (isIntersecting e)]
    else []) entries.

(** React applies the queued functional updates in order. *)
Definition apply_updates (queue : list updater) (state : gmap string bool)
  : gmap string bool :=
  foldl (λ s u, u s) state queue.

(** The tracker: the current state and the [inView] object captured by the
    live [observerCallback]. *)
Record tracker := Tracker {
  inView : gmap string bool;
  captured : gmap string bool
}.

Definition mount : tracker :=
  {| inView := inView_init; captured := inView_init |}.

Inductive event :=
| Intersect (entries : list entry)   (* the observer delivers entries *)
| Rerender.                          (* useCallback/useEffect re-run *)

Definition step (t : tracker) (ev : event) : tracker :=
  match ev with
  | Intersect entries =>
      {| inView := apply_updates (observerCallback (captured t) entries) (inView t);
         captured := captured t |}
  | Rerender => {| inView := inView t; captured := inView t |}
  end.

Definition run (evs : list event) : tracker := foldl step mount evs.

(** Both objects of a tracker have exactly the six section keys. *)
Definition well_keyed (t : tracker) : Prop :=
  dom (inView t) = list_to_set section_ids ∧
  dom (captured t) = list_to_set section_ids.

(** *** Registration (lines 52-57) *)

(** A section element; its [id] attribute is the key of its ref. *)
Record element := Element { elem_id : string }.

(** [sectionRefs]: each ref's [current] is the element once attached, [null]
    before. [Object.values] lists them in key order. *)
Definition refs := list (string * option element).

Definition values (r : refs) : list (option element) := r.*2.

(** The observer's list of observation targets. [observe] on a target that
    is already observed does nothing (per the IntersectionObserver API). *)
Definition observer := list element.

Global Instance element_eq_dec : EqDecision element.
Proof. solve_decision. Defined.

Definition observe (o : observer) (target : element) : observer :=
  if bool_decide (target ∈ o) then o else o ++ [target].

(** [Object.values(sectionRefs).forEach(ref => { if (ref.current)
    observer.observe(ref.current) })], starting from a fresh observer. *)
Definition register (r : refs) : observer :=
  foldl (λ o ref, match ref with
                  | Some el => observe o el
                  | None => o
                  end) [] (values r).

(** The elements of the refs that are attached, in key order. *)
Definition attached (r : refs) : list element := omap id (values r).

(** *** Cleanup of the observer effect (lines 59-67) *)

(** [observer.unobserve(target)] *)
Definition unobserve (o : observer) (target : element) : observer :=
  filter (λ el, el ≠ target) o.

(** [observer.disconnect()]: the observer stops watching all its targets. *)
Definition disconnect (o : observer) : observer := [].

(** [Object.values(sectionRefs).forEach(ref => { if (ref.current)
    observer.unobserve(ref.current) })] *)
Definition unobserve_all (r : refs) (o : observer) : observer :=
  foldl (λ o ref, match ref with
                  | Some el => unobserve o el
                  | None => o
                  end) o (values r).

(** The cleanup returned by the effect: the loop, then [disconnect]. *)
Definition unregister (r : refs) (o : observer) : observer :=
  disconnect (unobserve_all r o).

(** *** Reveal classes (lines 181-183) *)

Definition revealed_classes : string := "opacity-100 translate-y-0".
Definition hidden_classes : string := "opacity-0 translate-y-10".

(** [keyof typeof inView]: the type of the parameter of
    [getAnimationClasses]. *)
Inductive section_key :=
| summary | skills | experience | projects | achievements | education.

(** The property name a key stands for. *)
Definition key_name (k : section_key) : string :=
  match k with
  | summary => "summary"
  | skills => "skills"
  | experience => "experience"
  | projects => "projects"
  | achievements => "achievements"
  | education => "education"
  end.

(** [getAnimationClasses]: [inView[sectionId] ? ... : ...] for a
    [sectionId] of type [keyof typeof inView]. A property read that finds no
    own property goes on to the prototype; [Object.prototype] has no
    property of any of the six names, so for these keys the read is the own
    property or [undefined], which is falsy. *)
Definition getAnimationClasses (inView : gmap string bool) (sectionId : section_key)
  : string :=
  match inView !! key_name sectionId with
  | Some true => revealed_classes
  | _ => hidden_classes
  end.

(** *** Histories *)

(** What the last entry about [k] in a list of entries reports, if there is
    one. *)
Definition last_report (k : string) (entries : list entry) : option bool :=
  last (isIntersecting <$> filter (λ e, target_id e = k) entries).

(** All the entries delivered by a sequence of events, in order. *)
Definition delivered (evs : list event) : list entry :=
  flat_map (λ ev, match ev with
                  | Intersect entries => entries
                  | Rerender => []
                  end) evs.

End Visibility.

(** ** Decorative scene of the header (lines 70-158 of App.tsx) *)

Module Scene.

Local Open Scope float_scope.

(** The header element's child nodes: its foreground content and, once
    attached, the renderer's canvas ([renderer.domElement]). *)
Inductive node := Content | Canvas.

Global Instance node_eq_dec : EqDecision node.
Proof. solve_decision. Defined.

(** The element [headerRef.current] points to, when it is not [null]. *)
Inductive element := Header.

Inductive listener := OnWindowResize.

Global Instance listener_eq_dec : EqDecision listener.
Proof. solve_decision. Defined.

Inductive resource := TheRenderer | TheGeometry | TheMaterial.

Global Instance resource_eq_dec : EqDecision resource.
Proof. solve_decision. Defined.

Inductive exn := NotFoundError.

(** What one [renderer.render(scene, camera)] draws: the solid's angles, the
    aspect ratio baked into the projection matrix and the surface size. *)
Record frame := Frame {
  frame_rotation_x : float;
  frame_rotation_y : float;
  frame_aspect : float;
  frame_size : float * float
}.

(** The calls the effect makes on its collaborators, in order. *)
Inductive action :=
| RequestAnimationFrame (handle : nat)
| SetRotationX (angle : float)
| SetRotationY (angle : float)
| Render (f : frame)
| SetAspect (a : float)
| UpdateProjectionMatrix
| SetSize (width height : float)
| AppendChild (child : node)
| AddEventListener (l : listener)
| RemoveEventListener (l : listener)
| CancelAnimationFrame (handle : nat)
| RemoveChild (child : node)
| Dispose (r : resource).

(** The state the effect reads and writes. The three.js fields (from
    [rotation_x] on) are established by [setup]. *)
Record world := World {
  innerWidth : float;                    (* window.innerWidth *)
  innerHeight : float;                   (* window.innerHeight *)
  resize_listeners : list listener;      (* listeners of window 'resize' *)
  raf_counter : nat;                     (* last animation-frame handle issued *)
  raf_pending : list nat;                (* handles of the scheduled callbacks *)
  headerRef : option element;            (* headerRef.current *)
  header_children : list node;           (* child nodes of the header element *)
  animationFrameId : option nat;         (* animationFrameId.current *)
  currentHeaderRef : option element;     (* const captured by the cleanup *)
  domElement : option node;              (* renderer.domElement *)
  rotation_x : float;                    (* dodecahedron.rotation.x *)
  rotation_y : float;                    (* dodecahedron.rotation.y *)
  aspect : float;                        (* camera.aspect *)
  projection_aspect : float;             (* aspect used by the projection matrix *)
  size : float * float;                  (* renderer size (width, height) *)
  disposed : list resource;
  trace : list action
}.

Definition set_viewport (W H : float) (w : world) : world :=
  World W H (resize_listeners w) (raf_counter w) (raf_pending w) (headerRef w)
    (header_children w) (animationFrameId w) (currentHeaderRef w) (domElement w)
    (rotation_x w) (rotation_y w) (aspect w) (projection_aspect w) (size w)
    (disposed w) (trace w).

Definition set_resize_listeners (ls : list listener) (w : world) : world :=
  World (innerWidth w) (innerHeight w) ls (raf_counter w) (raf_pending w) (headerRef w)
    (header_children w) (animationFrameId w) (currentHeaderRef w) (domElement w)
    (rotation_x w) (rotation_y w) (aspect w) (projection_aspect w) (size w)
    (disposed w) (trace w).

Definition set_raf (counter : nat) (pending : list nat) (w : world) : world :=
  World (innerWidth w) (innerHeight w) (resize_listeners w) counter pending (headerRef w)
    (header_children w) (animationFrameId w) (currentHeaderRef w) (domElement w)
    (rotation_x w) (rotation_y w) (aspect w) (projection_aspect w) (size w)
    (disposed w) (trace w).

Definition set_header_children (cs : list node) (w : world) : world :=
  World (innerWidth w) (innerHeight w) (resize_listeners w) (raf_counter w)
    (raf_pending w) (headerRef w) cs (animationFrameId w) (currentHeaderRef w)
    (domElement w) (rotation_x w) (rotation_y w) (aspect w) (projection_aspect w)
    (size w) (disposed w) (trace w).

Definition set_animationFrameId (h : option nat) (w : world) : world :=
  World (innerWidth w) (innerHeight w) (resize_listeners w) (raf_counter w)
    (raf_pending w) (headerRef w) (header_children w) h (currentHeaderRef w)
    (domElement w) (rotation_x w) (rotation_y w) (aspect w) (projection_aspect w)
    (size w) (disposed w) (trace w).

Definition set_closure (hdr : option element) (canvas : option node) (w : world) : world :=
  World (innerWidth w) (innerHeight w) (resize_listeners w) (raf_counter w)
    (raf_pending w) (headerRef w) (header_children w) (animationFrameId w) hdr
    canvas (rotation_x w) (rotation_y w) (aspect w) (projection_aspect w)
    (size w) (disposed w) (trace w).

Definition set_rotation (x y : float) (w : world) : world :=
  World (innerWidth w) (innerHeight w) (resize_listeners w) (raf_counter w)
    (raf_pending w) (headerRef w) (header_children w) (animationFrameId w)
    (currentHeaderRef w) (domElement w) x y (aspect w) (projection_aspect w)
    (size w) (disposed w) (trace w).

Definition set_camera (a p : float) (w : world) : world :=
  World (innerWidth w) (innerHeight w) (resize_listeners w) (raf_counter w)
    (raf_pending w) (headerRef w) (header_children w) (animationFrameId w)
    (currentHeaderRef w) (domElement w) (rotation_x w) (rotation_y w) a p
    (size w) (disposed w) (trace w).

Definition set_size (s : float * float) (w : world) : world :=
  World (innerWidth w) (innerHeight w) (resize_listeners w) (raf_counter w)
    (raf_pending w) (headerRef w) (header_children w) (animationFrameId w)
    (currentHeaderRef w) (domElement w) (rotation_x w) (rotation_y w) (aspect w)
    (projection_aspect w) s (disposed w) (trace w).

Definition set_disposed (d : list resource) (w : world) : world :=
  World (innerWidth w) (innerHeight w) (resize_listeners w) (raf_counter w)
    (raf_pending w) (headerRef w) (header_children w) (animationFrameId w)
    (currentHeaderRef w) (domElement w) (rotation_x w) (rotation_y w) (aspect w)
    (projection_aspect w) (size w) d (trace w).

Definition emit (a : action) (w : world) : world :=
  World (innerWidth w) (innerHeight w) (resize_listeners w) (raf_counter w)
    (raf_pending w) (headerRef w) (header_children w) (animationFrameId w)
    (currentHeaderRef w) (domElement w) (rotation_x w) (rotation_y w) (aspect w)
    (projection_aspect w) (size w) (disposed w) (trace w ++ [a])%list.

(** *** Collaborators: the browser and three.js *)

(** [requestAnimationFrame(cb)]: the handle is the incremented counter, so it
    is never zero; the callback joins the pending list. *)
Definition requestAnimationFrame (w : world) : nat * world :=
  let handle := S (raf_counter w) in
  (handle, emit (RequestAnimationFrame handle)
             (set_raf handle (raf_pending w ++ [handle])%list w)).

(** [cancelAnimationFrame(handle)] *)
Definition cancelAnimationFrame (handle : nat) (w : world) : world :=
  emit (CancelAnimationFrame handle)
    (set_raf (raf_counter w) (filter (λ h, h ≠ handle) (raf_pending w)) w).

(** [header.appendChild(child)]: the child ends up last, once. *)
Definition appendChild (child : node) (w : world) : world :=
  emit (AppendChild child)
    (set_header_children
       (filter (λ n, n ≠ child) (header_children w) ++ [child])%list w).

(** [header.removeChild(child)] throws when [child] is not a child. *)
Definition removeChild (child : node) (w : world) : exn + world :=
  if bool_decide (child ∈ header_children w)
  then inr (emit (RemoveChild child)
              (set_header_children
                 (filter (λ n, n ≠ child) (header_children w)) w))
  else inl NotFoundError.

Definition addEventListener (l : listener) (w : world) : world :=
  emit (AddEventListener l) (set_resize_listeners (resize_listeners w ++ [l])%list w).

Definition removeEventListener (l : listener) (w : world) : world :=
  emit (RemoveEventListener l)
    (set_resize_listeners (filter (λ l', l' ≠ l) (resize_listeners w)) w).

(** [camera.updateProjectionMatrix()] *)
Definition updateProjectionMatrix (w : world) : world :=
  emit UpdateProjectionMatrix (set_camera (aspect w) (aspect w) w).

(** [new THREE.PerspectiveCamera(fov, aspect, near, far)] stores the aspect
    and computes the projection matrix. *)
Definition new_PerspectiveCamera (a : float) (w : world) : world :=
  updateProjectionMatrix (emit (SetAspect a) (set_camera a (projection_aspect w) w)).

(** [renderer.setSize(width, height)] *)
Definition setSize (width height : float) (w : world) : world :=
  emit (SetSize width height) (set_size (width, height) w).

(** [renderer.render(scene, camera)] *)
Definition render (w : world) : world :=
  emit (Render (Frame (rotation_x w) (rotation_y w) (projection_aspect w) (size w))) w.

Definition dispose (r : resource) (w : world) : world :=
  emit (Dispose r) (set_disposed (disposed w ++ [r])%list w).

(** JS truthiness of a [number | null]. *)
Definition truthy (v : option nat) : bool :=
  match v with
  | Some h => negb (Nat.eqb h 0)
  | None => false
  end.

(** *** The effect (lines 71-158) *)

(** [animate]: schedule the next frame, advance both angles, redraw. *)
Definition animate (w : world) : world :=
  let '(handle, w) := requestAnimationFrame w in
  let w := set_animationFrameId (Some handle) w in
  let w := emit (SetRotationX (rotation_x w + 0.002))
             (set_rotation (rotation_x w + 0.002) (rotation_y w) w) in
  let w := emit (SetRotationY (rotation_y w + 0.003))
             (set_rotation (rotation_x w) (rotation_y w + 0.003) w) in
  render w.

(** [onWindowResize] *)
Definition onWindowResize (w : world) : world :=
  let newWidth := innerWidth w in
  let newHeight := innerHeight w * 0.4 in
  let w := emit (SetAspect (newWidth / newHeight))
             (set_camera (newWidth / newHeight) (projection_aspect w) w) in
  let w := updateProjectionMatrix w in
  setSize newWidth newHeight w.

(** The body of the effect after its guard, up to and including the
    registration of the resize listener: camera, renderer, canvas, mesh.
    (The canvas style assignments, the pixel ratio and the two lights do not
    touch the state modelled here.) A new mesh has rotation zero. *)
Definition construct (hdr : element) (w : world) : world :=
  let w := new_PerspectiveCamera (innerWidth w / (innerHeight w * 0.4)) w in
  let w := set_disposed [] w in
  let w := setSize (innerWidth w) (innerHeight w * 0.4) w in
  let w := set_closure (Some hdr) (Some Canvas) w in
  let w := appendChild Canvas w in
  let w := set_rotation 0 0 w in
  addEventListener OnWindowResize w.

(** The effect function: [None] when [headerRef.current] is null (the effect
    returns early and registers no cleanup), otherwise the state after
    [animate()] has been started. *)
Definition setup (w : world) : option world :=
  match headerRef w with
  | None => None
  | Some hdr => Some (animate (construct hdr w))
  end.

(** The cleanup function returned by the effect. *)
Definition cleanup (w : world) : exn + world :=
  let w := removeEventListener OnWindowResize w in
  let w := if truthy (animationFrameId w)
           then match animationFrameId w with
                | Some handle => cancelAnimationFrame handle w
                | None => w
                end
           else w in
  let removed :=
    match currentHeaderRef w, domElement w with
    | Some _, Some canvas => removeChild canvas w
    | _, _ => inr w
    end in
  match removed with
  | inl e => inl e
  | inr w =>
      let w := dispose TheRenderer w in
      let w := dispose TheGeometry w in
      inr (dispose TheMaterial w)
  end.

(** *** The host: page load and browser events *)

(** The page when the effect first runs: a viewport, the header (or none)
    with its content, no scheduled frame, no listener, nothing drawn. The
    frame-handle counter is whatever the page has used so far. *)
Definition page_load (W H : float) (hdr : option element) (counter : nat) : world :=
  {| innerWidth := W; innerHeight := H; resize_listeners := [];
     raf_counter := counter; raf_pending := [];
     headerRef := hdr; header_children := [Content];
     animationFrameId := None; currentHeaderRef := None; domElement := None;
     rotation_x := 0; rotation_y := 0; aspect := 0; projection_aspect := 0;
     size := (0, 0); disposed := []; trace := [] |}.

Definition run_listener (l : listener) (w : world) : world :=
  match l with
  | OnWindowResize => onWindowResize w
  end.

Inductive event :=
| Tick                      (* a display refresh *)
| Resize (W H : float).     (* the viewport changes to W x H *)

(** A display refresh runs the callbacks scheduled so far (all of them are
    [animate]); callbacks scheduled meanwhile wait for the next refresh. A
    resize updates the viewport and runs the window's resize listeners. *)
Definition step (w : world) (ev : event) : world :=
  match ev with
  | Tick =>
      foldl (λ w _, animate w) (set_raf (raf_counter w) [] w) (raf_pending w)
  | Resize W H =>
      foldl (λ w l, run_listener l w) (set_viewport W H w) (resize_listeners w)
  end.

Definition run (evs : list event) (w : world) : world := foldl step w evs.

(** [n] consecutive executions of the frame callback. *)
Definition ticks (n : nat) (w : world) : world := Nat.iter n animate w.

(** The frames drawn so far. *)
Definition frames (w : world) : list frame :=
  omap (λ a, match a with Render f => Some f | _ => None end) (trace w).

(** The per-tick increments, and [n] successive binary64 additions of [r]. *)
Definition r_x : float := 0.002.
Definition r_y : float := 0.003.

Definition accumulate (n : nat) (r : float) : float :=
  Nat.iter n (λ a, a + r) 0.

(** The scene is live: set up and not yet cleaned up. Exactly one frame
    callback is scheduled and its handle is the one stored in the ref; the
    resize listener is registered; the canvas is attached; the renderer and
    the camera agree with the viewport. *)
Definition live (w : world) : Prop :=
  resize_listeners w = [OnWindowResize] ∧
  raf_pending w = [raf_counter w] ∧
  animationFrameId w = Some (raf_counter w) ∧
  raf_counter w ≠ 0%nat ∧
  currentHeaderRef w = Some Header ∧
  domElement w = Some Canvas ∧
  header_children w = [Content; Canvas] ∧
  disposed w = [] ∧
  size w = (innerWidth w, innerHeight w * 0.4) ∧
  aspect w = innerWidth w / (innerHeight w * 0.4) ∧
  projection_aspect w = aspect w.

(** [n] as a JS number. *)
Definition of_nat (n : nat) : float :=
  PrimFloat.of_uint63 (Uint63.of_Z (Z.of_nat n)).

(** *** Histories *)

(** The number of display refreshes in a sequence of events. *)
Fixpoint count_ticks (evs : list event) : nat :=
  match evs with
  | [] => 0%nat
  | Tick :: evs => S (count_ticks evs)
  | Resize _ _ :: evs => count_ticks evs
  end.

(** The viewport after a sequence of events that started at [v]: that of the
    last resize, if there is one. *)
Definition viewport_after (v : float * float) (evs : list event) : float * float :=
  foldl (λ v ev, match ev with
                 | Resize W H => (W, H)
                 | Tick => v
                 end) v evs.

(** One life of the effect: it runs, the events are handled, the cleanup
    runs. [None] when the effect returns early or the cleanup throws. *)
Definition session (evs : list event) (w : world) : option world :=
  match setup w with
  | None => None
  | Some w1 =>
      match cleanup (run evs w1) with
      | inl _ => None
      | inr w2 => Some w2
      end
  end.

(** Several lives in a row on the same page (remounts). *)
Fixpoint sessions (lives : list (list event)) (w : world) : option world :=
  match lives with
  | [] => Some w
  | evs :: lives =>
      match session evs w with
      | None => None
      | Some w' => sessions lives w'
      end
  end.

(** The calls that release a three.js resource. *)
Definition is_dispose (a : action) : bool :=
  match a with
  | Dispose _ => true
  | _ => false
  end.

(** The page holds nothing of the scene: no canvas in the header, no frame
    callback, no resize listener. *)
Definition clean (w : world) : Prop :=
  headerRef w = Some Header ∧
  header_children w = [Content] ∧
  raf_pending w = [] ∧
  resize_listeners w = [].

End Scene.

(** ** Back-to-top control (lines 160-172 and 562-570 of App.tsx) *)

Module BackToTop.

(** [window.scrollY] is a finite number of CSS pixels, possibly fractional;
    the handler only compares it, so it is modelled by a rational. *)
Definition threshold : Q := inject_Z 300.

(** [handleScroll]: the value it passes to [setShowBackToTop]. *)
Definition handleScroll (scrollY : Q) : bool :=
  if Qlt_le_dec threshold scrollY then true else false.

Inductive control := BackToTopButton.

(** [{showBackToTop && (<button aria-label="Back to top" .../>)}] *)
Definition render (showBackToTop : bool) : option control :=
  if showBackToTop then Some BackToTopButton else None.

(** The control shown once the scroll listener has seen position [p]. *)
Definition after_scroll (p : Q) : option control := render (handleScroll p).

End BackToTop.

(** ** Mobile menu (lines 8, 222-224 and 249-253 of App.tsx) *)

Module MobileMenu.

(** The state, and the value of [isMobileMenuOpen] the handlers of the last
    render closed over. *)
Record menu := Menu {
  isMobileMenuOpen : bool;
  rendered : bool
}.

(** [useState(false)] and the first render. *)
Definition init : menu := {| isMobileMenuOpen := false; rendered := false |}.

(** Menu button: [onClick={() => setIsMobileMenuOpen(!isMobileMenuOpen)}] *)
Definition toggle_onClick (m : menu) : menu :=
  {| isMobileMenuOpen := negb (rendered m); rendered := rendered m |}.

(** Mobile link: [setIsMobileMenuOpen(false)] (then a smooth scroll). *)
Definition link_onClick (m : menu) : menu :=
  {| isMobileMenuOpen := false; rendered := rendered m |}.

(** React re-renders with the committed state; the new handlers close over it. *)
Definition rerender (m : menu) : menu :=
  {| isMobileMenuOpen := isMobileMenuOpen m; rendered := isMobileMenuOpen m |}.

Inductive event := ToggleClick | LinkClick.

(** One activation: the handler runs and React re-renders before the next
    event is dispatched. *)
Definition step (m : menu) (ev : event) : menu :=
  match ev with
  | ToggleClick => rerender (toggle_onClick m)
  | LinkClick => rerender (link_onClick m)
  end.

Definition run (evs : list event) : menu := foldl step init evs.

End MobileMenu.

(** ** Navigation links (lines 205-217 and 245-258 of App.tsx) *)

Module Navigation.
Import Visibility.

(** The array literal both menus map over. *)
Definition nav_items : list string :=
  ["Summary"; "Skills"; "Experience"; "Projects"; "Achievements"; "Education"].

(** [String.prototype.toLowerCase] on ASCII text: the letters A-Z move to
    a-z, every other character stays. *)
Definition lower_ascii (c : Ascii.ascii) : Ascii.ascii :=
  let n := Ascii.nat_of_ascii c in
  if Nat.leb 65 n && Nat.leb n 90 then Ascii.ascii_of_nat (n + 32) else c.

Fixpoint toLowerCase (s : string) : string :=
  match s with
  | EmptyString => EmptyString
  | String c s' => String (lower_ascii c) (toLowerCase s')
  end.

(** [href={`#${item.toLowerCase()}`}] *)
Definition href (item : string) : string := String.append "#" (toLowerCase item).

(** The elements of the page that carry an [id]: the six [<section>]s of
    [<main>], in document order (lines 292, 311, 433, 476, 514, 544). *)
Definition document : list element :=
  [Element "summary"; Element "skills"; Element "experience";
   Element "projects"; Element "achievements"; Element "education"].

(** [document.getElementById(id)] *)
Definition getElementById (doc : list element) (id : string) : option element :=
  List.find (λ el, bool_decide (elem_id el = id)) doc.

(** The refs once the sections are rendered: [ref={sectionRefs.<id>}] on
    each [<section>]. *)
Definition sectionRefs : refs :=
  (λ el, (elem_id el, Some el)) <$> document.

(** The target of a link's click handler:
    [document.getElementById(item.toLowerCase())?.scrollIntoView(...)];
    [None] when the lookup is null and the call is skipped. *)
Definition link_target (item : string) : option element :=
  getElementById document (toLowerCase item).

End Navigation.

(** * Properties *)

(** ** Section visibility *)

Section VisibilityFacts.
Import Visibility.

Lemma includes_keys (o : gmap string bool) (k : string) :
  includes (keys o) k = true ↔ k ∈ dom o.
Proof.
  unfold includes, keys. rewrite bool_decide_eq_true, elem_of_dom.
  rewrite list_elem_of_fmap. split.
  - intros [[k' v] [-> Hin]]. apply elem_of_map_to_list in Hin. eauto.
  - intros [v Hv]. exists (k, v). split; [done|]. by apply elem_of_map_to_list.
Qed.

Lemma dom_inView_init : dom inView_init = list_to_set section_ids.
Proof. unfold inView_init, section_ids. rewrite !dom_insert_L. set_solver. Qed.

Lemma observerCallback_known (o : gmap string bool) (id : string) (b : bool) :
  id ∈ dom o → observerCallback o [Entry id b] = [spread_set id b].
Proof.
  intros Hin. unfold observerCallback. simpl.
  apply includes_keys in Hin. by rewrite Hin.
Qed.

Lemma observerCallback_unknown (o : gmap string bool) (id : string) (b : bool) :
  id ∉ dom o → observerCallback o [Entry id b] = [].
Proof.
  intros Hin. unfold observerCallback. simpl.
  destruct (includes (keys o) id) eqn:E; [|done].
  apply includes_keys in E. done.
Qed.

(** Processing any list of entries keeps the key set, as long as the captured
    object has the keys of the state. *)
Lemma apply_updates_dom (o st : gmap string bool) (entries : list entry) :
  dom o = dom st → dom (apply_updates (observerCallback o entries) st) = dom st.
Proof.
  revert st. induction entries as [|e es IH]; intros st Hdom; [done|].
  unfold observerCallback. simpl. fold (observerCallback o es).
  destruct (includes (keys o) (target_id e)) eqn:E; simpl.
  - assert (Hk : target_id e ∈ dom st) by (rewrite <- Hdom; by apply includes_keys).
    assert (Hd : dom (spread_set (target_id e) (isIntersecting e) st) = dom st).
    { unfold spread_set. rewrite dom_insert_L.
      apply subseteq_union_1_L. by apply singleton_subseteq_l. }
    unfold apply_updates in *. rewrite IH; [done|]. by rewrite Hd.
  - by apply IH.
Qed.

Lemma step_well_keyed (t : tracker) (ev : event) :
  well_keyed t → well_keyed (step t ev).
Proof.
  intros [Hs Hc]. destruct ev as [entries|]; split; simpl; try done.
  rewrite apply_updates_dom; [done|]. by rewrite Hs, Hc.
Qed.

Lemma run_well_keyed (evs : list event) : well_keyed (run evs).
Proof.
  unfold run. induction evs as [|ev evs IH] using rev_ind.
  - split; apply dom_inView_init.
  - rewrite foldl_app. simpl. by apply step_well_keyed.
Qed.

Lemma section_ids_dom (evs : list event) (id : string) :
  id ∈ section_ids ↔ id ∈ dom (captured (run evs)).
Proof.
  destruct (run_well_keyed evs) as [_ ->]. by rewrite elem_of_list_to_set.
Qed.

(** C1. For each of the six section identifiers and each reported state [b],
    processing an entry for that identifier in any reachable state sets the
    identifier's flag to [b] and leaves every other flag as it was. *)
Theorem observer_sets_flag (evs : list event) (id : string) (b : bool) :
  id ∈ section_ids →
  let t := run evs in
  let t' := step t (Intersect [Entry id b]) in
  inView t' !! id = Some b ∧ ∀ k, k ≠ id → inView t' !! k = inView t !! k.
Proof.
  intros Hid t t'. subst t' t. unfold step. cbn [inView].
  rewrite observerCallback_known by (by apply section_ids_dom).
  unfold apply_updates, spread_set. simpl. split.
  - apply lookup_insert_eq.
  - intros k Hk. by apply lookup_insert_ne.
Qed.

Lemma observer_sets_flag_witness :
  "skills" ∈ section_ids ∧
  inView (step (run []) (Intersect [Entry "skills" true])) !! "skills" = Some true.
Proof.
  assert (H : "skills" ∈ section_ids) by (unfold section_ids; set_solver).
  split; [exact H|]. exact (proj1 (observer_sets_flag [] "skills" true H)).
Defined.

(** C6. An entry whose identifier is not one of the six section keys leaves
    the visibility state of any reachable tracker unchanged. *)
Theorem observer_ignores_unknown (evs : list event) (id : string) (b : bool) :
  id ∉ section_ids →
  step (run evs) (Intersect [Entry id b]) = run evs.
Proof.
  intros Hid. unfold step.
  rewrite observerCallback_unknown by (by rewrite <- section_ids_dom).
  by destruct (run evs).
Qed.

Lemma observer_ignores_unknown_witness :
  ("footer" ∉ section_ids) ∧
  step (run [Intersect [Entry "skills" true]]) (Intersect [Entry "footer" true])
  = run [Intersect [Entry "skills" true]].
Proof.
  assert (H : "footer" ∉ section_ids).
  { unfold section_ids. rewrite !elem_of_cons, elem_of_nil. intros H.
    repeat (destruct H as [H|H]; [discriminate H|]). exact H. }
  split; [exact H|]. exact (observer_ignores_unknown _ "footer" true H).
Defined.

(** C7. The visibility state starts with the six flags false, and in every
    reachable state its key set is exactly the six section identifiers. *)
Theorem inView_six_keys (evs : list event) :
  Forall (λ k, inView (run []) !! k = Some false) section_ids ∧
  dom (inView (run [])) = list_to_set section_ids ∧
  dom (inView (run evs)) = list_to_set section_ids.
Proof.
  split; [|split].
  - unfold section_ids. repeat constructor.
  - apply dom_inView_init.
  - apply run_well_keyed.
Qed.

Example skills_enters_then_leaves :
  inView (run [Intersect [Entry "skills" true]]) !! "skills" = Some true ∧
  inView (run [Intersect [Entry "skills" true]]) !! "summary" = Some false ∧
  inView (run [Intersect [Entry "skills" true]; Rerender;
               Intersect [Entry "skills" false]]) = inView_init.
Proof. repeat split; by vm_compute. Qed.

(** Registration *)

Example register_two_of_three :
  register [("summary", Some (Element "summary")); ("skills", None);
            ("experience", Some (Element "experience"))]
  = [Element "summary"; Element "experience"].
Proof. reflexivity. Qed.

Lemma observe_elem (o : observer) (target el : element) :
  el ∈ observe o target ↔ el ∈ o ∨ el = target.
Proof.
  unfold observe. case_bool_decide as Hin.
  - split; [by left|]. intros [H| ->]; done.
  - rewrite elem_of_app, list_elem_of_singleton. done.
Qed.

Lemma register_from_elem (vs : list (option element)) (o : observer) (el : element) :
  el ∈ foldl (λ o ref, match ref with
                       | Some e => observe o e
                       | None => o
                       end) o vs
  ↔ el ∈ o ∨ Some el ∈ vs.
Proof.
  revert o. induction vs as [|v vs IH]; intros o; simpl.
  - rewrite elem_of_nil. tauto.
  - rewrite IH, elem_of_cons. destruct v as [e|].
    + rewrite observe_elem. split.
      * intros [[H|H]|H]; [by left|right; left; by rewrite H|by right; right].
      * intros [H|[H|H]]; [by left; left|left; right; congruence|by right].
    + split.
      * intros [H|H]; [by left|by right; right].
      * intros [H|[H|H]]; [by left|discriminate H|by right].
Qed.

(** C9. Registration is total; a ref whose [current] is null contributes
    nothing, and the observed elements are exactly those of the refs that are
    attached. *)
Theorem register_attached_only (r1 r2 : refs) (k : string) :
  register (r1 ++ (k, None) :: r2) = register (r1 ++ r2) ∧
  ∀ el, el ∈ register (r1 ++ r2) ↔ ∃ k', (k', Some el) ∈ r1 ++ r2.
Proof.
  split.
  - unfold register, values. rewrite !fmap_app, !foldl_app. done.
  - intros el. unfold register. rewrite register_from_elem, elem_of_nil.
    unfold values. rewrite list_elem_of_fmap. split.
    + intros [[]|[[k' v] [Hv Hin]]]. simpl in Hv. subst v. by exists k'.
    + intros [k' Hin]. right. by exists (k', Some el).
Qed.

End VisibilityFacts.

(** ** Decorative scene *)

Section SceneFacts.
Import Scene.
Local Open Scope float_scope.

Lemma animate_rotation (w : world) :
  rotation_x (animate w) = rotation_x w + r_x ∧
  rotation_y (animate w) = rotation_y w + r_y.
Proof. split; reflexivity. Qed.

Lemma ticks_rotation (n : nat) (w : world) :
  rotation_x (ticks n w) = Nat.iter n (λ a, a + r_x) (rotation_x w) ∧
  rotation_y (ticks n w) = Nat.iter n (λ a, a + r_y) (rotation_y w).
Proof.
  induction n as [|n [IHx IHy]]; [done|].
  unfold ticks in *. rewrite !Nat.iter_succ.
  destruct (animate_rotation (Nat.iter n animate w)) as [-> ->].
  by rewrite IHx, IHy.
Qed.

Lemma setup_live (W H : float) (counter : nat) :
  ∃ w, setup (page_load W H (Some Header) counter) = Some w ∧ live w.
Proof.
  eexists. split; [reflexivity|].
  unfold live. simpl. repeat split; try reflexivity. done.
Qed.

Lemma step_live (w : world) (ev : event) : live w → live (step w ev).
Proof.
  destruct w. unfold live. simpl.
  intros (-> & -> & Hid & Hc & -> & -> & -> & -> & Hs & Ha & Hp).
  destruct ev as [|W' H']; simpl; repeat split; try reflexivity; done.
Qed.

Lemma run_live (evs : list event) (w : world) : live w → live (run evs w).
Proof.
  revert w. induction evs as [|ev evs IH]; intros w Hw; [done|].
  simpl. apply IH. by apply step_live.
Qed.

Example setup_1000_by_800 :
  ∃ w, setup (page_load 1000 800 (Some Header) 0) = Some w ∧
       size w = (1000, 320) ∧ aspect w = 3.125 ∧
       size (step w (Resize 1920 1080)) = (1920, 432).
Proof. eexists. split; [reflexivity|]. repeat split. Qed.

Example setup_without_header (W H : float) (counter : nat) :
  setup (page_load W H None counter) = None.
Proof. reflexivity. Qed.

Lemma filter_ne_self (h : nat) : filter (λ h', h' ≠ h) [h] = [].
Proof. rewrite filter_cons. case_decide; [done|]. apply filter_nil. Qed.


Lemma cleanup_skips (u : world) :
  currentHeaderRef u = None →
  ∃ u', cleanup u = inr u' ∧
        disposed u' = disposed u ++ [TheRenderer; TheGeometry; TheMaterial].
Proof.
  destruct u as [iw ih rl rc rp hr hc af ch de rx ry a pa sz d tr]. simpl.
  intros ->. unfold cleanup.
  destruct af as [[|h]|]; simpl; (eexists; split; [reflexivity|]);
    simpl; by rewrite <- !app_assoc.
Qed.

(** C2. At setup the render surface is sized to (W, H*0.4) and the camera
    aspect is W/(H*0.4); a resize event to (W', H'), whatever happened in
    between, sets the size to (W', H'*0.4) and the aspect (and the projection)
    to W'/(H'*0.4) within the event itself, and the next frame is drawn with
    them. *)
Theorem surface_follows_viewport
    (W H W' H' : float) (counter : nat) (evs : list event) :
  ∃ w0, setup (page_load W H (Some Header) counter) = Some w0 ∧
    size w0 = (W, H * 0.4) ∧
    aspect w0 = W / (H * 0.4) ∧
    let w := step (run evs w0) (Resize W' H') in
    size w = (W', H' * 0.4) ∧
    aspect w = W' / (H' * 0.4) ∧
    projection_aspect w = W' / (H' * 0.4) ∧
    ∃ x y, frames (step w Tick)
           = frames w ++ [Frame x y (W' / (H' * 0.4)) (W', H' * 0.4)].
Proof.
  destruct (setup_live W H counter) as (w0 & Hw0 & Hlive).
  exists w0. split; [exact Hw0|].
  injection Hw0 as <-. split; [reflexivity|]. split; [reflexivity|].
  apply (run_live evs) in Hlive. revert Hlive.
  generalize (run evs (animate (construct Header (page_load W H (Some Header) counter)))).
  intros [iw ih rl rc rp hr hc af ch de rx ry a pa sz d tr].
  unfold live. simpl.
  intros (-> & -> & -> & Hc & -> & -> & -> & -> & _).
  repeat split. do 2 eexists. unfold frames. simpl.
  rewrite !omap_app. simpl. by rewrite !app_nil_r.
Qed.

(** C8. One execution of the frame callback issues, after scheduling the next
    frame, the update of the first angle, then the update of the second, then
    the redraw, and the redraw draws the two updated angles. *)
Theorem animate_updates_before_redraw (w : world) :
  trace (animate w) = trace w ++
    [RequestAnimationFrame (S (raf_counter w));
     SetRotationX (rotation_x w + r_x);
     SetRotationY (rotation_y w + r_y);
     Render (Frame (rotation_x w + r_x) (rotation_y w + r_y)
               (projection_aspect w) (size w))].
Proof. unfold animate. simpl. by rewrite <- !app_assoc. Qed.



(** The removal is guarded by the existence of the two objects, not by the
    canvas being a child: were the canvas taken out of the header by someone
    else, [removeChild] would throw and the disposals would not run. No state
    reachable from [setup] is like that ([cleanup_live]). *)
Example cleanup_throws_when_detached :
  ∃ w, setup (page_load 1024 768 (Some Header) 0) = Some w ∧
       cleanup (set_header_children [Content] w) = inl NotFoundError.
Proof. eexists. split; reflexivity. Qed.

Lemma run_ticks_rotation (n : nat) (w : world) :
  live w →
  rotation_x (run (replicate n Tick) w) = Nat.iter n (λ a, a + r_x) (rotation_x w) ∧
  rotation_y (run (replicate n Tick) w) = Nat.iter n (λ a, a + r_y) (rotation_y w).
Proof.
  revert w. induction n as [|n IH]; intros w Hw; [done|].
  change (run (replicate (S n) Tick) w) with (run (replicate n Tick) (step w Tick)).
  destruct (IH (step w Tick) (step_live w Tick Hw)) as [-> ->].
  rewrite !Nat.iter_succ_r.
  destruct Hw as (_ & Hp & _). simpl. rewrite Hp. done.
Qed.

(** Mounting runs [animate()] once itself, so after [n] display refreshes the
    angles have been advanced [n + 1] times. *)
Lemma rotation_after_refreshes (n : nat) (W H : float) (counter : nat) :
  ∃ w, setup (page_load W H (Some Header) counter) = Some w ∧
       rotation_x (run (replicate n Tick) w) = accumulate (S n) r_x ∧
       rotation_y (run (replicate n Tick) w) = accumulate (S n) r_y.
Proof.
  destruct (setup_live W H counter) as (w & Hw & Hlive).
  exists w. split; [exact Hw|].
  destruct (run_ticks_rotation n w Hlive) as [-> ->].
  injection Hw as <-. unfold accumulate. by rewrite !Nat.iter_succ_r.
Qed.

(** Up to five ticks the accumulated sums are the products. *)
Lemma accumulate_small :
  Forall (λ n, accumulate n r_x = of_nat n * r_x ∧
               accumulate n r_y = of_nat n * r_y) (seq 0 6).
Proof. repeat constructor. Qed.

(** C3 (as amended). The solid is constructed with both angles at zero.
    [n] executions of the frame callback from there leave the angles at the
    [n]-fold binary64 sums of [r_x = 0.002] and of [r_y = 0.003]; the setup
    runs the callback once itself, so after the setup and [n] display
    refreshes the angles are the [n + 1]-fold sums. [r_x < r_y]. For
    [n <= 5] the [n]-fold sums are the products [n * r_x] and [n * r_y]. *)
Theorem rotation_after_ticks (n : nat) (W H : float) (counter : nat) :
  let w0 := construct Header (page_load W H (Some Header) counter) in
  rotation_x w0 = 0 ∧
  rotation_y w0 = 0 ∧
  rotation_x (ticks n w0) = accumulate n r_x ∧
  rotation_y (ticks n w0) = accumulate n r_y ∧
  setup (page_load W H (Some Header) counter) = Some (ticks 1 w0) ∧
  rotation_x (run (replicate n Tick) (ticks 1 w0)) = accumulate (S n) r_x ∧
  rotation_y (run (replicate n Tick) (ticks 1 w0)) = accumulate (S n) r_y ∧
  (r_x <? r_y) = true ∧
  ((n ≤ 5)%nat → accumulate n r_x = of_nat n * r_x ∧
                  accumulate n r_y = of_nat n * r_y).
Proof.
  intros w0. split; [done|]. split; [done|].
  destruct (ticks_rotation n w0) as [Hx Hy].
  split; [exact Hx|]. split; [exact Hy|]. split; [reflexivity|].
  destruct (rotation_after_refreshes n W H counter) as (w & Hw & Hrx & Hry).
  assert (Hw0 : w = ticks 1 w0).
  { assert (E : setup (page_load W H (Some Header) counter) = Some (ticks 1 w0))
      by reflexivity.
    rewrite E in Hw. by injection Hw. }
  rewrite <- Hw0. split; [exact Hrx|]. split; [exact Hry|]. split; [done|].
  intros Hn. do 6 (destruct n as [|n]; [split; reflexivity|]). lia.
Qed.

(** C3 as stated fails under either way of counting ticks. Counting
    executions of the frame callback from the zero angles: after ten of them
    neither angle is ten times its increment ([0.02] and [0.03]), because the
    ten additions round differently from the product. Counting display
    refreshes after the setup: with no refresh at all the first angle is
    already [r_x], not zero, and after nine or ten refreshes it is not
    [10 * r_x]. *)
Lemma rotation_not_multiple :
  let w0 := construct Header (page_load 1024 768 (Some Header) 0) in
  rotation_x (ticks 10 w0) ≠ of_nat 10 * r_x ∧
  rotation_y (ticks 10 w0) ≠ of_nat 10 * r_y ∧
  setup (page_load 1024 768 (Some Header) 0) = Some (ticks 1 w0) ∧
  rotation_x (run (replicate 0 Tick) (ticks 1 w0)) ≠ of_nat 0 * r_x ∧
  rotation_x (run (replicate 9 Tick) (ticks 1 w0)) ≠ of_nat 10 * r_x ∧
  rotation_x (run (replicate 10 Tick) (ticks 1 w0)) ≠ of_nat 10 * r_x.
Proof.
  repeat split;
    intros E; apply (f_equal Prim2SF) in E; vm_compute in E; discriminate E.
Qed.

End SceneFacts.

(** ** Back-to-top control *)

Section BackToTopFacts.
Import BackToTop.

(** C5 (as amended). The control is absent for every scroll position up to
    and including 300 pixels and present for every position beyond 300; the
    boundary 300 is on the absent side. *)
Theorem back_to_top_threshold (p : Q) :
  ((p <= threshold)%Q → after_scroll p = None) ∧
  ((threshold < p)%Q → after_scroll p = Some BackToTopButton) ∧
  after_scroll threshold = None.
Proof.
  unfold after_scroll, handleScroll. repeat split.
  - intros Hle. destruct (Qlt_le_dec threshold p) as [Hlt|_]; [|done].
    exfalso. exact (Qlt_not_le _ _ Hlt Hle).
  - intros Hlt. destruct (Qlt_le_dec threshold p) as [_|Hle]; [done|].
    exfalso. exact (Qlt_not_le _ _ Hlt Hle).
Qed.

Example back_to_top_299_300_301 :
  after_scroll (inject_Z 299) = None ∧
  after_scroll (inject_Z 300) = None ∧
  after_scroll (inject_Z 301) = Some BackToTopButton ∧
  after_scroll (601 # 2) = Some BackToTopButton.
Proof. repeat split. Qed.

(** C5 as stated fails at exactly 300 pixels: the position is at the
    threshold, and the control is absent. *)
Lemma back_to_top_absent_at_300 :
  (threshold <= inject_Z 300)%Q ∧
  after_scroll (inject_Z 300) ≠ Some BackToTopButton.
Proof. split; [apply Qle_refl|]. discriminate. Qed.

End BackToTopFacts.

(** ** Mobile menu *)

Section MobileMenuFacts.
Import MobileMenu.

Lemma run_rendered (evs : list event) :
  rendered (run evs) = isMobileMenuOpen (run evs).
Proof.
  unfold run. induction evs as [|ev evs _] using rev_ind; [done|].
  rewrite foldl_app. simpl. by destruct ev.
Qed.

(** Why the re-render matters: two runs of the handler of one and the same
    render write the same value twice. *)
Lemma toggle_same_render (m : menu) :
  toggle_onClick (toggle_onClick m) = toggle_onClick m.
Proof. reflexivity. Qed.

(** C10. In every reachable state, activating the menu button flips
    [isMobileMenuOpen], two activations in a row restore the state, and
    activating a mobile link leaves the menu closed whatever it was. *)
Theorem menu_toggle_twice (evs : list event) :
  let m := run evs in
  isMobileMenuOpen (step m ToggleClick) = negb (isMobileMenuOpen m) ∧
  step (step m ToggleClick) ToggleClick = m ∧
  ∀ m', isMobileMenuOpen (step m' LinkClick) = false.
Proof.
  intros m. pose proof (run_rendered evs) as Hr. fold m in Hr.
  destruct m as [o r]. simpl in *. subst r.
  by destruct o.
Qed.

End MobileMenuFacts.

(** ** Section visibility: batches and histories *)

Section VisibilityHistory.
Import Visibility.

Lemma observerCallback_app (o : gmap string bool) (es1 es2 : list entry) :
  observerCallback o (es1 ++ es2) = observerCallback o es1 ++ observerCallback o es2.
Proof. unfold observerCallback. apply flat_map_app. Qed.

Lemma apply_updates_app (q1 q2 : list updater) (st : gmap string bool) :
  apply_updates (q1 ++ q2) st = apply_updates q2 (apply_updates q1 st).
Proof. unfold apply_updates. apply foldl_app. Qed.

(** X1. A batch of entries has the effect of its two halves delivered one
    after the other. *)
Theorem intersect_batch_split (t : tracker) (es1 es2 : list entry) :
  step t (Intersect (es1 ++ es2)) = step (step t (Intersect es1)) (Intersect es2).
Proof.
  unfold step. cbn [inView captured].
  by rewrite observerCallback_app, apply_updates_app.
Qed.

Lemma last_report_snoc (k : string) (es : list entry) (e : entry) :
  last_report k (es ++ [e])
  = if decide (target_id e = k) then Some (isIntersecting e) else last_report k es.
Proof.
  unfold last_report. rewrite filter_app, filter_cons, filter_nil.
  case_decide.
  - by rewrite fmap_app, last_app.
  - by rewrite app_nil_r.
Qed.

(** The flags after a batch, for any captured object [o] and state [st]. *)
Lemma apply_updates_lookup (o st : gmap string bool) (es : list entry) (k : string) :
  apply_updates (observerCallback o es) st !! k
  = match last_report k es with
    | Some b => if bool_decide (k ∈ dom o) then Some b else st !! k
    | None => st !! k
    end.
Proof.
  induction es as [|e es IH] using rev_ind; [done|].
  rewrite observerCallback_app, apply_updates_app, last_report_snoc.
  assert (E1 : observerCallback o [e]
               = if includes (keys o) (target_id e)
                 then [spread_set (target_id e) (isIntersecting e)] else []).
  { unfold observerCallback. simpl. apply app_nil_r. }
  rewrite E1. clear E1.
  destruct (includes (keys o) (target_id e)) eqn:E.
  - apply includes_keys in E.
    change (apply_updates [spread_set (target_id e) (isIntersecting e)]
              (apply_updates (observerCallback o es) st))
      with (<[target_id e := isIntersecting e]>
              (apply_updates (observerCallback o es) st)).
    destruct (decide (target_id e = k)) as [<-|Hk].
    + rewrite lookup_insert_eq. by rewrite bool_decide_eq_true_2.
    + by rewrite lookup_insert_ne.
  - change (apply_updates [] (apply_updates (observerCallback o es) st))
      with (apply_updates (observerCallback o es) st).
    rewrite IH.
    destruct (decide (target_id e = k)) as [<-|Hk]; [|done].
    assert (Hn : target_id e ∉ dom o).
    { intros Hin. apply includes_keys in Hin. congruence. }
    rewrite (bool_decide_eq_false_2 _ Hn). by destruct (last_report _ es).
Qed.

Lemma captured_known (evs : list event) (k : string) :
  bool_decide (k ∈ dom (captured (run evs))) = bool_decide (k ∈ section_ids).
Proof.
  destruct (run_well_keyed evs) as [_ Hc].
  apply bool_decide_ext. rewrite Hc. apply elem_of_list_to_set.
Qed.

Lemma inView_unknown (evs : list event) (k : string) :
  k ∉ section_ids → inView (run evs) !! k = None.
Proof.
  intros Hk. destruct (run_well_keyed evs) as [Hi _].
  apply not_elem_of_dom. rewrite Hi. by rewrite elem_of_list_to_set.
Qed.

(** X2. In a reachable state, after a batch of entries the flag of a section
    identifier is what the last entry about it in the batch reports, or its
    old value when the batch has no entry about it; a key that is not a
    section identifier stays absent. *)
Theorem intersect_last_report_wins (evs : list event) (es : list entry) (k : string) :
  inView (step (run evs) (Intersect es)) !! k
  = if bool_decide (k ∈ section_ids)
    then match last_report k es with
         | Some b => Some b
         | None => inView (run evs) !! k
         end
    else None.
Proof.
  unfold step. cbn [inView]. rewrite apply_updates_lookup, captured_known.
  destruct (bool_decide (k ∈ section_ids)) eqn:Hk; [done|].
  apply bool_decide_eq_false in Hk.
  rewrite (inView_unknown evs k Hk). by destruct (last_report k es).
Qed.

(** X3. Delivering the same batch again (as a re-created observer does with
    the current intersection states) changes nothing. *)
Theorem intersect_redelivery_idempotent (t : tracker) (es : list entry) :
  step (step t (Intersect es)) (Intersect es) = step t (Intersect es).
Proof.
  unfold step. cbn [inView captured]. f_equal.
  apply map_eq. intros k. rewrite !apply_updates_lookup.
  destruct (last_report k es); [|done]. by case_bool_decide.
Qed.

Lemma last_report_app (k : string) (es1 es2 : list entry) :
  last_report k (es1 ++ es2)
  = match last_report k es2 with
    | Some b => Some b
    | None => last_report k es1
    end.
Proof. unfold last_report. by rewrite filter_app, fmap_app, last_app. Qed.

Lemma inView_init_lookup (k : string) :
  inView_init !! k = if bool_decide (k ∈ section_ids) then Some false else None.
Proof.
  case_bool_decide as Hk.
  - unfold section_ids in Hk. rewrite !elem_of_cons, elem_of_nil in Hk.
    repeat (destruct Hk as [->|Hk]; [reflexivity|]). done.
  - apply not_elem_of_dom. rewrite dom_inView_init. by rewrite elem_of_list_to_set.
Qed.

Lemma run_snoc (evs : list event) (ev : event) :
  run (evs ++ [ev]) = step (run evs) ev.
Proof. unfold run. by rewrite foldl_app. Qed.

(** At any time, the flag of a section is what the last entry ever delivered
    about it reports, and false when there was none. *)
Lemma inView_follows_history (evs : list event) (k : string) :
  inView (run evs) !! k
  = if bool_decide (k ∈ section_ids)
    then Some (default false (last_report k (delivered evs)))
    else None.
Proof.
  induction evs as [|ev evs IH] using rev_ind.
  - apply inView_init_lookup.
  - rewrite run_snoc. unfold delivered. rewrite flat_map_app. simpl.
    rewrite app_nil_r. fold (delivered evs). destruct ev as [es|].
    + unfold step. cbn [inView].
      rewrite apply_updates_lookup, captured_known, IH, last_report_app.
      case_bool_decide; by destruct (last_report k es).
    + by rewrite app_nil_r.
Qed.

Lemma key_name_section_id (k : section_key) :
  bool_decide (key_name k ∈ section_ids) = true.
Proof. by destruct k. Qed.

(** X4. Whatever has been delivered, each of the six sections carries the
    revealed classes exactly when the last entry ever delivered about it
    reported it as intersecting, and the hidden classes otherwise (in
    particular when it was never reported). *)
Theorem classes_follow_last_report (evs : list event) (k : section_key) :
  getAnimationClasses (inView (run evs)) k
  = if default false (last_report (key_name k) (delivered evs))
    then revealed_classes
    else hidden_classes.
Proof.
  unfold getAnimationClasses.
  rewrite inView_follows_history, key_name_section_id.
  by destruct (default false _).
Qed.

(** Registration and its cleanup *)

Lemma observe_NoDup (o : observer) (target : element) :
  NoDup o → NoDup (observe o target).
Proof.
  intros Ho. unfold observe. case_bool_decide as Hin; [done|].
  apply NoDup_app. split; [done|]. split; [|apply NoDup_singleton].
  intros x Hx ->%list_elem_of_singleton. done.
Qed.

Lemma register_from_NoDup (vs : list (option element)) (o : observer) :
  NoDup o →
  NoDup (foldl (λ o ref, match ref with
                         | Some e => observe o e
                         | None => o
                         end) o vs).
Proof.
  revert o. induction vs as [|[e|] vs IH]; intros o Ho; simpl; [done| |by apply IH].
  apply IH. by apply observe_NoDup.
Qed.

Lemma register_from_distinct (vs : list (option element)) (o : observer) :
  NoDup (o ++ omap id vs) →
  foldl (λ o ref, match ref with
                  | Some e => observe o e
                  | None => o
                  end) o vs = o ++ omap id vs.
Proof.
  revert o. induction vs as [|[e|] vs IH]; intros o Ho.
  - simpl. by rewrite app_nil_r.
  - change (omap id (Some e :: vs)) with (e :: omap id vs) in *.
    assert (Hne : e ∉ o).
    { apply NoDup_app in Ho as (_ & Ho & _). intros Hin. apply (Ho e Hin). by left. }
    assert (Ho' : observe o e = o ++ [e]).
    { unfold observe. by rewrite bool_decide_eq_false_2. }
    cbn [foldl]. rewrite Ho'.
    rewrite IH; rewrite <- app_assoc; done.
  - by apply IH.
Qed.

(** X5. The observer never holds a target twice, and when the attached
    elements are distinct it holds exactly them, in the key order of
    [sectionRefs]. *)
Theorem register_in_key_order (r : refs) :
  NoDup (register r) ∧ (NoDup (attached r) → register r = attached r).
Proof.
  split.
  - apply register_from_NoDup. constructor.
  - intros Hr. unfold register. by rewrite register_from_distinct.
Qed.

Lemma unobserve_all_elem (vs : list (option element)) (o : observer) (el : element) :
  el ∈ foldl (λ o ref, match ref with
                       | Some e => unobserve o e
                       | None => o
                       end) o vs
  ↔ el ∈ o ∧ Some el ∉ vs.
Proof.
  revert o. induction vs as [|v vs IH]; intros o; simpl.
  - rewrite elem_of_nil. tauto.
  - rewrite IH, not_elem_of_cons. destruct v as [e|].
    + unfold unobserve. rewrite list_elem_of_filter. split.
      * intros [[Hne Hin] Hvs]. split; [done|]. split; [congruence|done].
      * intros [Hin [Hne Hvs]]. split; [|done]. split; [congruence|done].
    + split.
      * intros [Hin Hvs]. done.
      * intros [Hin [_ Hvs]]. done.
Qed.

(** X6. The unobserve loop of the cleanup, run over the refs the effect
    registered, removes every target on its own; with the [disconnect] that
    follows, the observer is empty whatever the refs have become. *)
Theorem unregister_leaves_nothing (r r' : refs) :
  unobserve_all r (register r) = [] ∧ unregister r' (register r) = [].
Proof.
  split; [|done]. apply elem_of_nil_inv. intros el.
  unfold unobserve_all. rewrite unobserve_all_elem.
  unfold register. rewrite register_from_elem, elem_of_nil. tauto.
Qed.

End VisibilityHistory.

(** ** Decorative scene: histories, release and remount *)

Section SceneHistory.
Import Scene.
Local Open Scope float_scope.

(** What one event does to a live scene. *)
Lemma step_live_facts (w : world) (ev : event) :
  live w →
  headerRef (step w ev) = headerRef w ∧
  match ev with
  | Tick =>
      rotation_x (step w ev) = rotation_x w + r_x ∧
      rotation_y (step w ev) = rotation_y w + r_y ∧
      raf_counter (step w ev) = S (raf_counter w) ∧
      innerWidth (step w ev) = innerWidth w ∧
      innerHeight (step w ev) = innerHeight w ∧
      frames (step w ev)
      = frames w ++ [Frame (rotation_x w + r_x) (rotation_y w + r_y)
                       (projection_aspect w) (size w)]
  | Resize W H =>
      rotation_x (step w ev) = rotation_x w ∧
      rotation_y (step w ev) = rotation_y w ∧
      raf_counter (step w ev) = raf_counter w ∧
      innerWidth (step w ev) = W ∧
      innerHeight (step w ev) = H ∧
      frames (step w ev) = frames w
  end.
Proof.
  destruct w as [iw ih rl rc rp hr hc af ch de rx ry a pa sz d tr].
  unfold live. simpl.
  intros (-> & -> & -> & Hc & -> & -> & -> & -> & _).
  destruct ev as [|W' H']; simpl; repeat split; unfold frames; simpl;
    rewrite !omap_app; simpl; by rewrite !app_nil_r.
Qed.

Lemma run_cons (ev : event) (evs : list event) (w : world) :
  run (ev :: evs) w = run evs (step w ev).
Proof. reflexivity. Qed.

Lemma scene_run_snoc (evs : list event) (ev : event) (w : world) :
  run (evs ++ [ev]) w = step (run evs w) ev.
Proof. unfold run. by rewrite foldl_app. Qed.

Lemma run_live_facts (evs : list event) (w : world) :
  live w →
  headerRef (run evs w) = headerRef w ∧
  rotation_x (run evs w) = Nat.iter (count_ticks evs) (λ a, a + r_x) (rotation_x w) ∧
  rotation_y (run evs w) = Nat.iter (count_ticks evs) (λ a, a + r_y) (rotation_y w) ∧
  raf_counter (run evs w) = (raf_counter w + count_ticks evs)%nat ∧
  (innerWidth (run evs w), innerHeight (run evs w))
  = viewport_after (innerWidth w, innerHeight w) evs ∧
  length (frames (run evs w)) = (length (frames w) + count_ticks evs)%nat.
Proof.
  revert w. induction evs as [|ev evs IH]; intros w Hw.
  - simpl. repeat split; lia.
  - rewrite run_cons.
    destruct (IH (step w ev) (step_live w ev Hw)) as (-> & -> & -> & -> & -> & ->).
    destruct (step_live_facts w ev Hw) as [-> Hev].
    destruct ev as [|W' H'].
    + destruct Hev as (-> & -> & -> & -> & -> & ->).
      cbn [count_ticks]. rewrite !Nat.iter_succ_r, length_app. simpl.
      repeat split; lia.
    + destruct Hev as (-> & -> & -> & -> & -> & ->). by simpl.
Qed.

(** The scene right after the effect has run on a freshly loaded page. *)
Lemma setup_page_facts (W H : float) (counter : nat) :
  ∃ w, setup (page_load W H (Some Header) counter) = Some w ∧ live w ∧
       rotation_x w = accumulate 1 r_x ∧
       rotation_y w = accumulate 1 r_y ∧
       raf_counter w = S counter ∧
       innerWidth w = W ∧ innerHeight w = H ∧
       length (frames w) = 1%nat ∧
       Forall (λ a, is_dispose a = false) (trace w).
Proof.
  destruct (setup_live W H counter) as (w & Hw & Hlive).
  exists w. split; [exact Hw|]. split; [exact Hlive|].
  injection Hw as <-. repeat split. simpl. by repeat constructor.
Qed.

Lemma accumulate_iter (n : nat) (r : float) :
  Nat.iter n (λ a, a + r) (accumulate 1 r) = accumulate (S n) r.
Proof. unfold accumulate. by rewrite !Nat.iter_succ_r. Qed.

(** X7. After the effect has run, the two angles depend only on how many
    display refreshes there were, not on the resizes in between: they are the
    accumulated sums of one more increment than refreshes. *)
Theorem rotation_counts_refreshes
    (W H : float) (counter : nat) (evs : list event) :
  ∃ w, setup (page_load W H (Some Header) counter) = Some w ∧
       rotation_x (run evs w) = accumulate (S (count_ticks evs)) r_x ∧
       rotation_y (run evs w) = accumulate (S (count_ticks evs)) r_y.
Proof.
  destruct (setup_page_facts W H counter) as (w & Hw & Hlive & Hx & Hy & _).
  exists w. split; [exact Hw|].
  destruct (run_live_facts evs w Hlive) as (_ & -> & -> & _).
  by rewrite Hx, Hy, !accumulate_iter.
Qed.

(** X8. After any sequence of refreshes and resizes the renderer size and
    the camera aspect are those of the last viewport, and the frame the next
    refresh draws is drawn with them: no frame is drawn at a stale size. *)
Theorem frames_follow_last_viewport
    (W H : float) (counter : nat) (evs : list event) :
  ∃ w, setup (page_load W H (Some Header) counter) = Some w ∧
    let v := viewport_after (W, H) evs in
    size (run evs w) = (v.1, v.2 * 0.4) ∧
    aspect (run evs w) = v.1 / (v.2 * 0.4) ∧
    ∃ x y, frames (run (evs ++ [Tick]) w)
           = frames (run evs w) ++ [Frame x y (v.1 / (v.2 * 0.4)) (v.1, v.2 * 0.4)].
Proof.
  destruct (setup_page_facts W H counter)
    as (w & Hw & Hlive & _ & _ & _ & HW & HH & _).
  exists w. split; [exact Hw|]. intros v.
  destruct (run_live_facts evs w Hlive) as (_ & _ & _ & _ & Hv & _).
  assert (Hv' : (innerWidth (run evs w), innerHeight (run evs w)) = v).
  { rewrite Hv. by rewrite HW, HH. }
  pose proof (run_live evs w Hlive) as Hl.
  destruct (step_live_facts (run evs w) Tick Hl) as (_ & _ & _ & _ & _ & _ & Hf).
  destruct Hl as (_ & _ & _ & _ & _ & _ & _ & _ & Hs & Ha & Hp).
  assert (Hv1 : innerWidth (run evs w) = v.1) by (by rewrite <- Hv').
  assert (Hv2 : innerHeight (run evs w) = v.2) by (by rewrite <- Hv').
  rewrite Hv1, Hv2 in Hs, Ha.
  split; [exact Hs|]. split; [exact Ha|].
  rewrite scene_run_snoc, Hf, Hp, Ha, Hs. eauto.
Qed.

(** X9. Every display refresh draws exactly one frame and a resize draws
    none: after the effect has run there are as many frames as refreshes,
    plus the one drawn at setup. *)
Theorem one_frame_per_refresh
    (W H : float) (counter : nat) (evs : list event) :
  ∃ w, setup (page_load W H (Some Header) counter) = Some w ∧
       length (frames (run evs w)) = S (count_ticks evs).
Proof.
  destruct (setup_page_facts W H counter)
    as (w & Hw & Hlive & _ & _ & _ & _ & _ & Hf & _).
  exists w. split; [exact Hw|].
  destruct (run_live_facts evs w Hlive) as (_ & _ & _ & _ & _ & ->).
  by rewrite Hf.
Qed.

(** X10. While the scene lives exactly one frame callback is scheduled; its
    handle is the one kept in [animationFrameId], it is never zero, and each
    refresh replaces it by the next handle. *)
Theorem single_pending_callback
    (W H : float) (counter : nat) (evs : list event) :
  ∃ w, setup (page_load W H (Some Header) counter) = Some w ∧
       let handle := S (counter + count_ticks evs) in
       raf_pending (run evs w) = [handle] ∧
       animationFrameId (run evs w) = Some handle ∧
       truthy (animationFrameId (run evs w)) = true.
Proof.
  destruct (setup_page_facts W H counter)
    as (w & Hw & Hlive & _ & _ & Hcnt & _).
  exists w. split; [exact Hw|]. intros handle.
  destruct (run_live_facts evs w Hlive) as (_ & _ & _ & Hc & _).
  destruct (run_live evs w Hlive) as (_ & Hp & Hid & _).
  assert (Hh : raf_counter (run evs w) = handle) by (by rewrite Hc, Hcnt).
  rewrite Hp, Hid, Hh. done.
Qed.

Lemma world_ext (w1 w2 : world) :
  innerWidth w1 = innerWidth w2 → innerHeight w1 = innerHeight w2 →
  resize_listeners w1 = resize_listeners w2 →
  raf_counter w1 = raf_counter w2 → raf_pending w1 = raf_pending w2 →
  headerRef w1 = headerRef w2 → header_children w1 = header_children w2 →
  animationFrameId w1 = animationFrameId w2 →
  currentHeaderRef w1 = currentHeaderRef w2 → domElement w1 = domElement w2 →
  rotation_x w1 = rotation_x w2 → rotation_y w1 = rotation_y w2 →
  aspect w1 = aspect w2 → projection_aspect w1 = projection_aspect w2 →
  size w1 = size w2 → disposed w1 = disposed w2 → trace w1 = trace w2 →
  w1 = w2.
Proof. destruct w1, w2. simpl. intros. by subst. Qed.

(** The state the cleanup leaves behind a live scene. *)
Lemma cleanup_live_state (w : world) :
  live w →
  cleanup w = inr
    (World (innerWidth w) (innerHeight w) [] (raf_counter w) [] (headerRef w)
       [Content] (animationFrameId w) (Some Header) (Some Canvas)
       (rotation_x w) (rotation_y w) (aspect w) (projection_aspect w) (size w)
       [TheRenderer; TheGeometry; TheMaterial]
       (trace w ++
          [RemoveEventListener OnWindowResize;
           CancelAnimationFrame (raf_counter w); RemoveChild Canvas;
           Dispose TheRenderer; Dispose TheGeometry; Dispose TheMaterial])).
Proof.
  destruct w as [iw ih rl rc rp hr hc af ch de rx ry a pa sz d tr].
  unfold live. simpl.
  intros (-> & -> & -> & Hc & -> & -> & -> & -> & _).
  destruct rc as [|c]; [done|].
  unfold cleanup. simpl. f_equal.
  apply world_ext; simpl; try reflexivity.
  - apply (filter_ne_self (S c)).
  - by rewrite <- !app_assoc.
Qed.

(** Once the listener and the callback are gone, events only move the
    viewport. *)
Lemma run_released (evs : list event) (w : world) :
  resize_listeners w = [] → raf_pending w = [] →
  trace (run evs w) = trace w ∧
  raf_pending (run evs w) = [] ∧
  size (run evs w) = size w ∧
  aspect (run evs w) = aspect w ∧
  rotation_x (run evs w) = rotation_x w ∧
  rotation_y (run evs w) = rotation_y w ∧
  header_children (run evs w) = header_children w ∧
  disposed (run evs w) = disposed w.
Proof.
  revert w. induction evs as [|ev evs IH]; intros w Hl Hp; [done|].
  rewrite run_cons.
  assert (Hs : step w ev = match ev with
                           | Tick => w
                           | Resize W H => set_viewport W H w
                           end).
  { destruct w. simpl in *. subst. by destruct ev. }
  rewrite Hs. destruct ev as [|W H]; [by apply IH|].
  destruct (IH (set_viewport W H w)) as (-> & -> & -> & -> & -> & -> & -> & ->);
    done.
Qed.

(** X11. After the cleanup nothing of the scene runs any more: whatever
    refreshes and resizes follow, no call is made on the renderer, the camera
    or the scheduler (no frame is drawn, none is scheduled), and the size and
    the angles stay as they were. *)
Theorem nothing_runs_after_cleanup
    (W H : float) (counter : nat) (evs later : list event) :
  ∃ w w', setup (page_load W H (Some Header) counter) = Some w ∧
    cleanup (run evs w) = inr w' ∧
    trace (run later w') = trace w' ∧
    frames (run later w') = frames w' ∧
    raf_pending (run later w') = [] ∧
    size (run later w') = size w' ∧
    rotation_x (run later w') = rotation_x w' ∧
    rotation_y (run later w') = rotation_y w'.
Proof.
  destruct (setup_live W H counter) as (w & Hw & Hlive).
  apply (run_live evs) in Hlive.
  exists w. eexists. split; [exact Hw|].
  split; [by apply cleanup_live_state|].
  match goal with |- trace (run later ?w') = _ ∧ _ =>
    destruct (run_released later w') as (Ht & Hp & Hs & _ & Hx & Hy & _)
  end; [done..|].
  unfold frames. rewrite Ht. done.
Qed.

(** X12. The cleanup is not idempotent: run a second time, the canvas is no
    longer a child of the header and [removeChild] throws. *)
Theorem second_cleanup_throws
    (W H : float) (counter : nat) (evs : list event) :
  ∃ w w', setup (page_load W H (Some Header) counter) = Some w ∧
    cleanup (run evs w) = inr w' ∧
    cleanup w' = inl NotFoundError.
Proof.
  destruct (setup_live W H counter) as (w & Hw & Hlive).
  apply (run_live evs) in Hlive.
  exists w. eexists. split; [exact Hw|].
  split; [by apply cleanup_live_state|].
  destruct Hlive as (_ & _ & Hid & _).
  unfold cleanup. simpl. rewrite Hid. by destruct (truthy _).
Qed.

Lemma setup_clean (w : world) :
  clean w → ∃ w1, setup w = Some w1 ∧ live w1 ∧ headerRef w1 = Some Header.
Proof.
  destruct w as [iw ih rl rc rp hr hc af ch de rx ry a pa sz d tr].
  unfold clean. simpl. intros (-> & -> & -> & ->).
  eexists. split; [reflexivity|]. split; [|reflexivity].
  unfold live. simpl. repeat split; try reflexivity. done.
Qed.

Lemma session_clean (evs : list event) (w : world) :
  clean w → ∃ w', session evs w = Some w' ∧ clean w'.
Proof.
  intros Hw. destruct (setup_clean w Hw) as (w1 & Hs & Hl & Hh).
  unfold session. rewrite Hs.
  destruct (run_live_facts evs w1 Hl) as (Hh' & _).
  rewrite (cleanup_live_state _ (run_live evs w1 Hl)).
  eexists. split; [reflexivity|].
  unfold clean. simpl. by rewrite Hh', Hh.
Qed.

(** X13. Mounting and unmounting leaves no residue, however often it is
    repeated: each life of the effect on the same page completes (the cleanup
    does not throw) and ends with the header holding only its content, no
    frame callback scheduled and no resize listener registered. *)
Theorem remounts_leave_page_clean
    (W H : float) (counter : nat) (lives : list (list event)) :
  ∃ w', sessions lives (page_load W H (Some Header) counter) = Some w' ∧ clean w'.
Proof.
  assert (Hgen : ∀ w, clean w → ∃ w', sessions lives w = Some w' ∧ clean w').
  { induction lives as [|evs lives IH]; intros w Hw; [by exists w|].
    destruct (session_clean evs w Hw) as (w1 & Hs & Hc).
    simpl. rewrite Hs. by apply IH. }
  apply Hgen. by unfold clean.
Qed.

Lemma step_live_trace (w : world) (ev : event) :
  live w →
  Forall (λ a, is_dispose a = false) (trace w) →
  Forall (λ a, is_dispose a = false) (trace (step w ev)).
Proof.
  destruct w as [iw ih rl rc rp hr hc af ch de rx ry a pa sz d tr].
  unfold live. simpl.
  intros (-> & -> & -> & Hc & -> & -> & -> & -> & _) Htr.
  destruct ev as [|W' H']; simpl; rewrite !Forall_app; repeat split;
    try done; by repeat constructor.
Qed.

Lemma run_live_trace (evs : list event) (w : world) :
  live w →
  Forall (λ a, is_dispose a = false) (trace w) →
  Forall (λ a, is_dispose a = false) (trace (run evs w)).
Proof.
  revert w. induction evs as [|ev evs IH]; intros w Hw Htr; [done|].
  rewrite run_cons. apply IH; [by apply step_live|by apply step_live_trace].
Qed.

(** X17. Over a whole life of the scene and whatever follows it, each of the
    renderer, the geometry and the material is disposed exactly once, by the
    last three calls ever made: nothing is disposed while the scene lives, and
    no call (no redraw, no resize of the surface) follows a disposal. *)
Theorem no_call_after_dispose
    (W H : float) (counter : nat) (evs later : list event) :
  ∃ w w', setup (page_load W H (Some Header) counter) = Some w ∧
    cleanup (run evs w) = inr w' ∧
    Forall (λ a, is_dispose a = false) (trace (run evs w)) ∧
    trace (run later w')
    = trace (run evs w) ++
        [RemoveEventListener OnWindowResize;
         CancelAnimationFrame (S (counter + count_ticks evs));
         RemoveChild Canvas;
         Dispose TheRenderer; Dispose TheGeometry; Dispose TheMaterial].
Proof.
  destruct (setup_page_facts W H counter)
    as (w & Hw & Hlive & _ & _ & Hcnt & _ & _ & _ & Htr).
  exists w. eexists. split; [exact Hw|].
  split; [by apply cleanup_live_state, run_live|]. split.
  - by apply run_live_trace.
  - match goal with |- trace (run later ?w') = _ =>
      destruct (run_released later w') as (-> & _)
    end; [reflexivity..|].
    cbn [trace]. destruct (run_live_facts evs w Hlive) as (_ & _ & _ & -> & _).
    by rewrite Hcnt.
Qed.

End SceneHistory.

(** ** Back-to-top control, mobile menu and navigation links *)

Section ControlsFacts.
Import BackToTop MobileMenu Navigation.

(** X14. The threshold is monotone: if the handler shows the control at
    some scroll position, it shows it at every position further down. *)
Theorem handleScroll_monotone (p q : Q) :
  (p <= q)%Q → handleScroll p = true → handleScroll q = true.
Proof.
  unfold handleScroll. intros Hpq Hp.
  destruct (Qlt_le_dec threshold p) as [Hlt|_]; [|discriminate Hp].
  destruct (Qlt_le_dec threshold q) as [_|Hle]; [done|].
  exfalso. apply (Qlt_not_le _ _ Hlt). by apply Qle_trans with q.
Qed.

Lemma handleScroll_monotone_witness :
  (inject_Z 301 <= inject_Z 400)%Q ∧ handleScroll (inject_Z 400) = true.
Proof.
  assert (H : (inject_Z 301 <= inject_Z 400)%Q) by (by vm_compute).
  split; [exact H|]. exact (handleScroll_monotone _ _ H eq_refl).
Defined.

Lemma menu_run_snoc (evs : list MobileMenu.event) (ev : MobileMenu.event) :
  MobileMenu.run (evs ++ [ev]) = MobileMenu.step (MobileMenu.run evs) ev.
Proof. unfold MobileMenu.run. by rewrite foldl_app. Qed.

(** X15. After any history, [n] further activations of the menu button
    leave the menu open exactly when [n] is odd and it was closed, or [n] is
    even and it was open; in particular, [n] activations after a link click
    leave it open exactly when [n] is odd. *)
Theorem menu_open_parity (evs : list MobileMenu.event) (n : nat) :
  isMobileMenuOpen (MobileMenu.run (evs ++ replicate n ToggleClick))
  = xorb (isMobileMenuOpen (MobileMenu.run evs)) (Nat.odd n) ∧
  isMobileMenuOpen (MobileMenu.run ((evs ++ [LinkClick]) ++ replicate n ToggleClick))
  = Nat.odd n.
Proof.
  assert (Hgen : ∀ evs, isMobileMenuOpen (MobileMenu.run (evs ++ replicate n ToggleClick))
                        = xorb (isMobileMenuOpen (MobileMenu.run evs)) (Nat.odd n)).
  { clear evs. intros evs. induction n as [|n IH].
    - simpl. rewrite app_nil_r. by destruct (isMobileMenuOpen _).
    - rewrite replicate_S_end, app_assoc, menu_run_snoc.
      pose proof (run_rendered (evs ++ replicate n ToggleClick)) as Hr.
      simpl. rewrite Hr, IH, Nat.odd_succ, <- Nat.negb_odd.
      generalize (isMobileMenuOpen (MobileMenu.run evs)), (Nat.odd n).
      by intros [] []. }
  split; [apply Hgen|]. rewrite Hgen, menu_run_snoc. done.
Qed.

(** X16. Every item of the two navigation menus, lower-cased, is a section
    identifier, in the order of the sections; the element its click handler
    looks up exists, so the optional call is never skipped, and it is one of
    the elements the observer watches. *)
Theorem nav_links_reach_sections :
  toLowerCase <$> nav_items = Visibility.section_ids ∧
  link_target <$> nav_items = Some <$> Visibility.register sectionRefs ∧
  href <$> nav_items = String.append "#" <$> Visibility.section_ids.
Proof. repeat split. Qed.

End ControlsFacts.
